(** * Optional<T>: a zero-or-one element container with a linked end sentinel

    Shallow embedding of [optional.h].  The class keeps an embedded [Item]
    ([m_end]) that serves as the end marker of the iteration, and a pointer
    [m_container] to a heap [Item] that holds the value once [update] ran.
    Pointers, the heap of [Item]s and C++ exceptions are explicit:
    every member function is a computation [M A] over the object state.

    [T] is a parameter.  Its constructors from arguments may throw; its
    default constructor (run by [Item::Item()]) and [operator new] are
    taken to return.  [update] takes [T]'s assignment to store the value
    and return; [update_assigning] is the same function with an assignment
    that may throw.  The destructors ([~Item], [~Optional],
    [pointerDelete]) end an object's life and are modelled apart, by what
    they delete, and so is the implicitly declared copy constructor, whose
    argument is a second object. *)

From Stdlib Require Import String.
From stdpp Require Import base list.

(** ** Pointers to [Item] *)

(** An [Item*] is null, the address of the embedded member [m_end] of the
    object under consideration, or the address of an [Item] obtained from
    [new Item] (its index in the heap). *)
Inductive ptr : Type :=
| nullptr
| addr_end
| addr_heap (n : nat).

#[global] Instance ptr_eq_dec : EqDecision ptr.
Proof. solve_decision. Defined.

(** [if (p)] on a pointer: true iff [p] is not null. *)
Definition to_bool (p : ptr) : bool :=
  match p with
  | nullptr => false
  | _ => true
  end.

(** A [T&] that designates the [data] member of the [Item] at [ref_node]. *)
Record T_ref : Type := data_of { ref_node : ptr }.

(** [Optional<T>::iterator]: holds an [Item] pointer. *)
Record iterator : Type := Iterator { m_node : ptr }.

(** Lemmas stating that a call leaves the object state alone. *)
Create HintDb keeps.

Section Optional.

(** The contained type, the value a default-initialised [T] holds, and
    the null value of [T] when [T] is itself a pointer type (this decides
    which overload of [pointerInit] is selected). *)
Variable T : Type.
Variable T_default : T.
Variable T_nullptr : option T.

(** The argument packs accepted by [T]'s constructors, the exceptions
    those constructors throw, and the constructors themselves. *)
Variable Args : Type.
Variable E : Type.
Variable T_ctor : Args -> E + T.

(** The expansion of [__FILE__] in [get]. *)
Variable FILE : string.

(** ** Exceptions *)

Inductive exception : Type :=
| runtime_error (what : string)
| T_exception (e : E).

(** ** Items, object state *)

Record Item : Type := mkItem { next : ptr; data : T }.

(** The members of one [Optional<T>] together with the heap its pointers
    refer to. *)
Record state : Type := mkState {
  m_end : Item;
  m_container : ptr;
  heap : list Item
}.

Definition set_next (p : ptr) (i : Item) : Item :=
  {| next := p; data := data i |}.
Definition set_data (d : T) (i : Item) : Item :=
  {| next := next i; data := d |}.
Definition set_m_end (i : Item) (s : state) : state :=
  {| m_end := i; m_container := m_container s; heap := heap s |}.
Definition set_m_container (p : ptr) (s : state) : state :=
  {| m_end := m_end s; m_container := p; heap := heap s |}.
Definition set_heap (h : list Item) (s : state) : state :=
  {| m_end := m_end s; m_container := m_container s; heap := h |}.

(** ** Computations

    A member function returns normally, leaves by an exception, has
    undefined behaviour (access through a null or dangling pointer), or
    (loops only) exhausts the fuel it was given. *)
Inductive res (A : Type) : Type :=
| Ok (a : A) (s : state)
| Throw (e : exception) (s : state)
| Undefined
| OutOfFuel.
Arguments Ok {A} a s.
Arguments Throw {A} e s.
Arguments Undefined {A}.
Arguments OutOfFuel {A}.

Definition M (A : Type) : Type := state -> res A.

Definition ret {A} (a : A) : M A := fun s => Ok a s.
Definition bind {A B} (m : M A) (k : A -> M B) : M B :=
  fun s =>
    match m s with
    | Ok a s' => k a s'
    | Throw e s' => Throw e s'
    | Undefined => Undefined
    | OutOfFuel => OutOfFuel
    end.
Definition throw {A} (e : exception) : M A := fun s => Throw e s.
Definition out_of_fuel {A} : M A := fun _ => OutOfFuel.
Definition gets {A} (f : state -> A) : M A := fun s => Ok (f s) s.
Definition modify (f : state -> state) : M unit := fun s => Ok tt (f s).

Notation "x <- m ;; k" := (bind m (fun x => k))
  (at level 100, m at next level, right associativity).
Notation "m ;;; k" := (bind m (fun _ => k))
  (at level 100, right associativity).

(** ** Memory *)

(** The [Item] a pointer designates, if any. *)
Definition load (p : ptr) (s : state) : option Item :=
  match p with
  | nullptr => None
  | addr_end => Some (m_end s)
  | addr_heap n => heap s !! n
  end.

(** [p->field = ...]: rewrite the [Item] at [p]. *)
Definition store (p : ptr) (f : Item -> Item) : M unit :=
  fun s =>
    match p with
    | nullptr => Undefined
    | addr_end => Ok tt (set_m_end (f (m_end s)) s)
    | addr_heap n =>
        match heap s !! n with
        | Some i => Ok tt (set_heap (<[n := f i]> (heap s)) s)
        | None => Undefined
        end
    end.

(** [p->data] as an lvalue. *)
Definition field_data (p : ptr) : M T_ref :=
  fun s =>
    match load p s with
    | Some _ => Ok (data_of p) s
    | None => Undefined
    end.

(** [p->next] as an rvalue. *)
Definition field_next (p : ptr) : M ptr :=
  fun s =>
    match load p s with
    | Some i => Ok (next i) s
    | None => Undefined
    end.

(** Reading the [T] a reference designates. *)
Definition read (r : T_ref) : M T :=
  fun s =>
    match load (ref_node r) s with
    | Some i => Ok (data i) s
    | None => Undefined
    end.

(** ** Pointer helpers *)

(** The two overloads of [pointerInit]: a pointer [T] is nulled, any
    other [T] is left as it is. *)
Definition pointerInit (d : T) : T :=
  match T_nullptr with
  | Some null => null
  | None => d
  end.

(** ** Item *)

(** [Item::Item()] for the object at address [this]. *)
Definition Item_ctor (this : ptr) : Item :=
  {| next := this; data := pointerInit T_default |}.

(** [new Item]: a fresh heap cell holding a default [Item]. *)
Definition new_Item : M ptr :=
  fun s =>
    let p := addr_heap (length (heap s)) in
    Ok p (set_heap (heap s ++ [Item_ctor p]) s).

(** ** iterator *)

Definition iter_incr (it : iterator) : M iterator :=
  n <- field_next (m_node it) ;;
  ret (Iterator n).

Definition iter_deref (it : iterator) : M T_ref :=
  field_data (m_node it).

Definition iter_eq (a b : iterator) : bool :=
  bool_decide (m_node a = m_node b).

Definition iter_neq (a b : iterator) : bool :=
  negb (bool_decide (m_node a = m_node b)).

(** ** Optional: queries *)

Definition begin : M iterator :=
  n <- gets (fun s => next (m_end s)) ;;
  ret (Iterator n).

Definition end_ : M iterator :=
  ret (Iterator addr_end).

Definition empty : M bool :=
  c <- gets m_container ;;
  ret (bool_decide (c = nullptr)).

Definition defined : M bool :=
  c <- gets m_container ;;
  ret (negb (bool_decide (c = nullptr))).

(** The text [get] streams into the [stringstream]; [__LINE__] sits on
    line 290 of the header. *)
Definition get_what : string :=
  ("The Optional needs to be set before access (" ++ FILE ++ ":" ++ "290" ++ ")")%string.

Definition get : M T_ref :=
  c <- gets m_container ;;
  if to_bool c then field_data c
  else throw (runtime_error get_what).

(** ** Optional: update and the constructors *)

Definition update_what : string := "Something bad happened in Optional"%string.

(** [T data(std::forward<Args>(args)...)] for a constructor [ctor] of [T]. *)
Definition construct_T {A} (ctor : A -> E + T) (args : A) : M T :=
  match ctor args with
  | inr v => ret v
  | inl e => throw (T_exception e)
  end.

Definition update {A} (ctor : A -> E + T) (args : A) : M unit :=
  d <- construct_T ctor args ;;
  c <- gets m_container ;;
  (if to_bool c then throw (runtime_error update_what) else ret tt) ;;;
  p <- new_Item ;;
  modify (set_m_container p) ;;;
  c1 <- gets m_container ;;
  store c1 (set_data d) ;;;
  c2 <- gets m_container ;;
  store c2 (set_next addr_end) ;;;
  c3 <- gets m_container ;;
  store addr_end (set_next c3).

(** The member initialisers [m_end(), m_container(nullptr)] shared by the
    three constructors, on a heap [h]. *)
Definition init (h : list Item) : state :=
  {| m_end := Item_ctor addr_end; m_container := nullptr; heap := h |}.

(** [T]'s copy constructor: the copy is the value. *)
Definition T_copy (d : T) : E + T := inr d.

Definition Optional_default (h : list Item) : res unit :=
  ret tt (init h).

Definition Optional_copy (d : T) (h : list Item) : res unit :=
  update T_copy d (init h).

Definition Optional_emplace (args : Args) (h : list Item) : res unit :=
  update T_ctor args (init h).

(** A container is what one of the three constructors the class declares
    returns.  What the implicitly declared copy constructor returns
    ([copy_of], below) is not a container in this sense. *)
Inductive container : state -> Prop :=
| container_default h s :
    Optional_default h = Ok tt s -> container s
| container_copy d h s :
    Optional_copy d h = Ok tt s -> container s
| container_emplace args h s :
    Optional_emplace args h = Ok tt s -> container s.

(** ** Traversal

    [for (auto it = begin(); it != end(); ++it) { T& d = *it; ... }]:
    the references the body is handed, with the value read through each. *)
Fixpoint loop (fuel : nat) (it e : iterator) (acc : list (T_ref * T))
  : M (list (T_ref * T)) :=
  match fuel with
  | O => out_of_fuel
  | S fuel' =>
      if iter_neq it e then
        r <- iter_deref it ;;
        v <- read r ;;
        it' <- iter_incr it ;;
        loop fuel' it' e (acc ++ [(r, v)])
      else ret acc
  end.

Definition iterate (fuel : nat) : M (list (T_ref * T)) :=
  b <- begin ;;
  e <- end_ ;;
  loop fuel b e [].

(** The number of increments that take [begin()] to [end()]. *)
Fixpoint count_steps (fuel : nat) (it e : iterator) (n : nat) : M nat :=
  match fuel with
  | O => out_of_fuel
  | S fuel' =>
      if iter_eq it e then ret n
      else it' <- iter_incr it ;; count_steps fuel' it' e (S n)
  end.

Definition steps_to_end (fuel : nat) : M nat :=
  b <- begin ;;
  e <- end_ ;;
  count_steps fuel b e 0.

(** [*end()]. *)
Definition deref_end : M T_ref :=
  e <- end_ ;;
  iter_deref e.

(** The end marker is reached after no step on an empty object and after
    one step on a set one, and dereferencing it never returns. *)
Definition end_marker_guarded (fuel : nat) (s : state) : Prop :=
  steps_to_end fuel s = Ok (if to_bool (m_container s) then 1 else 0) s /\
  forall r s', deref_end s <> Ok r s'.

(** ** Sequences of public calls *)

Inductive op : Type := Op_empty | Op_defined | Op_get | Op_iterate.

Inductive op_value : Type :=
| V_bool (b : bool)
| V_ref (r : T_ref)
| V_elems (l : list (T_ref * T)).

Definition run_op (fuel : nat) (o : op) : M op_value :=
  match o with
  | Op_empty => b <- empty ;; ret (V_bool b)
  | Op_defined => b <- defined ;; ret (V_bool b)
  | Op_get => r <- get ;; ret (V_ref r)
  | Op_iterate => l <- iterate fuel ;; ret (V_elems l)
  end.

(** The caller runs the calls in order and catches what they throw;
    [None] when a call has undefined behaviour or does not finish. *)
Fixpoint run_ops (fuel : nat) (os : list op) (s : state)
  : option (list (exception + op_value) * state) :=
  match os with
  | [] => Some ([], s)
  | o :: os' =>
      match run_op fuel o s with
      | Ok v s' =>
          match run_ops fuel os' s' with
          | Some (vs, s'') => Some (inr v :: vs, s'')
          | None => None
          end
      | Throw e s' =>
          match run_ops fuel os' s' with
          | Some (vs, s'') => Some (inl e :: vs, s'')
          | None => None
          end
      | Undefined | OutOfFuel => None
      end
  end.

(** ** Representation *)

(** What [m_container] holds: the [data] of the [Item] it points to. *)
Definition stored (s : state) : option T :=
  data <$> load (m_container s) s.

(** The linked shape the constructors establish. *)
Definition linked (s : state) : Prop :=
  match m_container s with
  | nullptr => next (m_end s) = addr_end
  | addr_end => False
  | addr_heap n =>
      next (m_end s) = addr_heap n /\
      exists d, heap s !! n = Some {| next := addr_end; data := d |}
  end.

(** The state [update] leaves behind on a fresh object. *)
Definition filled (h : list Item) (v : T) : state :=
  {| m_end := {| next := addr_heap (length h); data := pointerInit T_default |};
     m_container := addr_heap (length h);
     heap := h ++ [{| next := addr_end; data := v |}] |}.

(** A result whose final state, if it has one, is [s], and whose
    exception, if it has one, is the one [get] throws. *)
Definition keeps {A} (s : state) (r : res A) : Prop :=
  match r with
  | Ok _ s' => s' = s
  | Throw e s' => s' = s /\ e = runtime_error get_what
  | Undefined | OutOfFuel => True
  end.

(** A result that is a normal return or an exception. *)
Definition finishes {A} (r : res A) : Prop :=
  match r with
  | Ok _ _ | Throw _ _ => True
  | Undefined | OutOfFuel => False
  end.

(** A result that is not an exception. *)
Definition quiet {A} (r : res A) : Prop :=
  match r with
  | Throw _ _ => False
  | Ok _ _ | Undefined | OutOfFuel => True
  end.

(** ** Callers' moves on iterators and references *)

(** [++it] applied [k] times. *)
Fixpoint advance (k : nat) (it : iterator) : M iterator :=
  match k with
  | O => ret it
  | S k' => it' <- iter_incr it ;; advance k' it'
  end.

(** [r = v] through a [T&]: the assignment [update] itself makes to
    [m_container->data]. *)
Definition assign (r : T_ref) (v : T) : M unit :=
  store (ref_node r) (set_data v).

(** ** Destruction

    What [delete] is applied to is recorded: the [Item] cells released and
    the [T] pointers deleted, in order.  [None] is undefined behaviour.
    A [T] pointer may be deleted only if a new-expression returned it. *)
Context {T_eq_dec : EqDecision T}.
Variable from_new : T -> bool.

(** The two overloads of [pointerDelete]: the pointers deleted and the
    value the argument is left with. *)
Definition pointerDelete (d : T) : option (list T * T) :=
  match T_nullptr with
  | Some null =>
      if decide (d = null) then Some ([], d)
      else if from_new d then Some ([d], null)
      else None
  | None => Some ([], d)
  end.

(** [Item::~Item()]. *)
Definition Item_dtor (i : Item) : option (list T) :=
  match pointerDelete (data i) with
  | Some (deleted, _) => Some deleted
  | None => None
  end.

(** [delete p] for an [Item* p]: nothing on null, else the destructor and
    the release of the cell; [m_end] is a member, not a cell. *)
Definition delete_Item (p : ptr) (s : state) : option (list ptr * list T) :=
  match p with
  | nullptr => Some ([], [])
  | addr_end => None
  | addr_heap n =>
      match heap s !! n with
      | Some i =>
          match Item_dtor i with
          | Some deleted => Some ([p], deleted)
          | None => None
          end
      | None => None
      end
  end.

(** [Optional::~Optional()]: the body, then the destructor of [m_end]. *)
Definition Optional_dtor (s : state) : option (list ptr * list T) :=
  match delete_Item (m_container s) s with
  | Some (cells, deleted) =>
      match Item_dtor (m_end s) with
      | Some deleted' => Some (cells, deleted ++ deleted')
      | None => None
      end
  | None => None
  end.

(** ** The implicitly declared copy constructor

    [optional.h] declares no copy constructor and deletes none, so
    [Optional(const Optional&)] exists and copies [m_end] and
    [m_container] member by member.  Its argument is another object in
    memory: seen from the new object, the argument's [m_end] is one more
    cell of the heap, and every pointer to it a pointer to that cell. *)

(** An [Optional] elsewhere in memory: the cell its [m_end] occupies and
    the value of its [m_container]. *)
Record object : Type := Object { end_cell : nat; container_ptr : ptr }.

(** A pointer held by an object whose [m_end] is the cell [k], read from
    outside that object. *)
Definition outside (k : nat) (p : ptr) : ptr :=
  match p with
  | addr_end => addr_heap k
  | nullptr | addr_heap _ => p
  end.

Definition outside_item (k : nat) (i : Item) : Item :=
  {| next := outside k (next i); data := data i |}.

(** The object [s] and its heap as another object finds them: [m_end]
    takes the cell after the heap. *)
Definition place (s : state) : list Item * object :=
  let k := length (heap s) in
  ((outside_item k <$> heap s) ++ [outside_item k (m_end s)],
   {| end_cell := k; container_ptr := outside k (m_container s) |}).

(** The implicit copy constructor of [Item]: [next] and [data] are
    copied; [pointerInit] is not run. *)
Definition Item_copy (i : Item) : Item :=
  {| next := next i; data := data i |}.

(** [Optional(const Optional& other)] on the memory [mem]. *)
Definition Optional_implicit_copy (other : object) (mem : list Item)
  : res unit :=
  match mem !! end_cell other with
  | Some e =>
      Ok tt {| m_end := Item_copy e;
               m_container := container_ptr other;
               heap := mem |}
  | None => Undefined
  end.

(** [const Optional<T> a = ...; Optional<T> b(a);] for the object [s]. *)
Definition copy_of (s : state) : res unit :=
  Optional_implicit_copy (place s).2 (place s).1.

(** The shape of a copy: [m_end.next] leads into a ring of heap cells
    that does not pass through this object's own [m_end]. *)
Definition foreign_ring (s : state) : Prop :=
  exists j k ij ik,
    next (m_end s) = addr_heap j /\
    heap s !! j = Some ij /\ next ij = addr_heap k /\
    heap s !! k = Some ik /\ next ik = addr_heap j.

(** ** update with an assignment of [T] that may throw

    Line 313, [m_container->data = std::move(data)], is [T]'s own
    assignment operator.  [T_assign old v] is what assigning [v] to a [T]
    holding [old] does: the value held afterwards, with the exception
    when it throws. *)
Variable T_assign : T -> T -> (E * T) + T.

(** [p->data = std::move(d)]. *)
Definition assign_data (p : ptr) (d : T) : M unit :=
  fun s =>
    match load p s with
    | Some i =>
        match T_assign (data i) d with
        | inr w => store p (set_data w) s
        | inl (e, w) =>
            match store p (set_data w) s with
            | Ok _ s' => Throw (T_exception e) s'
            | Throw e' s' => Throw e' s'
            | Undefined => Undefined
            | OutOfFuel => OutOfFuel
            end
        end
    | None => Undefined
    end.

Definition update_assigning {A} (ctor : A -> E + T) (args : A) : M unit :=
  d <- construct_T ctor args ;;
  c <- gets m_container ;;
  (if to_bool c then throw (runtime_error update_what) else ret tt) ;;;
  p <- new_Item ;;
  modify (set_m_container p) ;;;
  c1 <- gets m_container ;;
  assign_data c1 d ;;;
  c2 <- gets m_container ;;
  store c2 (set_next addr_end) ;;;
  c3 <- gets m_container ;;
  store addr_end (set_next c3).

Definition Optional_emplace_assigning (args : Args) (h : list Item)
  : res unit :=
  update_assigning T_ctor args (init h).

(** * Properties *)

(** [update] on an object whose [m_container] is null: the exception of
    [T]'s constructor, or the new [Item] linked in front of [m_end]. *)
Lemma update_fresh {A} (ctor : A -> E + T) (args : A) (s : state) :
  m_container s = nullptr ->
  update ctor args s =
  match ctor args with
  | inr v =>
      Ok tt {| m_end := set_next (addr_heap (length (heap s))) (m_end s);
               m_container := addr_heap (length (heap s));
               heap := heap s ++ [{| next := addr_end; data := v |}] |}
  | inl e => Throw (T_exception e) s
  end.
Proof.
  intros Hm. unfold update, construct_T, bind.
  destruct (ctor args) as [e|v]; [reflexivity|].
  cbn. rewrite Hm. cbn.
  rewrite list_lookup_middle by reflexivity.
  cbn. rewrite insert_app_r_alt by (cbn; lia).
  rewrite Nat.sub_diag. cbn.
  rewrite list_lookup_middle by reflexivity.
  cbn. rewrite insert_app_r_alt by (cbn; lia).
  rewrite Nat.sub_diag. reflexivity.
Qed.

(** [update] on an object whose [m_container] is not null. *)
Lemma update_again {A} (ctor : A -> E + T) (args : A) (s : state) :
  m_container s <> nullptr ->
  update ctor args s =
  match ctor args with
  | inr _ => Throw (runtime_error update_what) s
  | inl e => Throw (T_exception e) s
  end.
Proof.
  intros Hm. unfold update, construct_T, bind.
  destruct (ctor args) as [e|v]; [reflexivity|].
  cbn. destruct (m_container s); [congruence| |]; reflexivity.
Qed.

Lemma update_init {A} (ctor : A -> E + T) (args : A) (h : list Item) :
  update ctor args (init h) =
  match ctor args with
  | inr v => Ok tt (filled h v)
  | inl e => Throw (T_exception e) (init h)
  end.
Proof. rewrite update_fresh; reflexivity. Qed.

Lemma container_cases s :
  container s -> (exists h, s = init h) \/ (exists h v, s = filled h v).
Proof.
  intros [h s' H | d h s' H | args h s' H].
  - left. exists h. unfold Optional_default, ret in H. congruence.
  - right. exists h, d. unfold Optional_copy in H.
    rewrite update_init in H. cbn in H. congruence.
  - right. exists h. unfold Optional_emplace in H.
    rewrite update_init in H.
    destruct (T_ctor args) as [e|v]; [discriminate|].
    exists v. congruence.
Qed.

Lemma load_filled h v :
  load (addr_heap (length h)) (filled h v) =
  Some {| next := addr_end; data := v |}.
Proof. cbn. apply list_lookup_middle. reflexivity. Qed.

Lemma container_linked s : container s -> linked s.
Proof.
  intros Hc. destruct (container_cases s Hc) as [[h ->] | (h & v & ->)].
  - reflexivity.
  - split; [reflexivity|]. exists v. apply (load_filled h v).
Qed.

Lemma neq_end n : iter_neq (Iterator (addr_heap n)) (Iterator addr_end) = true.
Proof. reflexivity. Qed.

(** What each member function does on a linked state. *)

Lemma get_empty s :
  m_container s = nullptr -> get s = Throw (runtime_error get_what) s.
Proof. intros H. unfold get, bind, gets. rewrite H. reflexivity. Qed.

Lemma get_set s :
  linked s -> m_container s <> nullptr ->
  exists v, stored s = Some v /\
            get s = Ok (data_of (m_container s)) s /\
            read (data_of (m_container s)) s = Ok v s.
Proof.
  unfold linked, stored, get, read, bind, gets, field_data.
  destruct (m_container s) as [| |n] eqn:Hm; intros Hl Hn;
    [congruence|contradiction|].
  destruct Hl as [_ [d Hd]]. exists d. cbn. rewrite Hd. auto.
Qed.

Lemma iter_neq_refl it : iter_neq it it = false.
Proof. unfold iter_neq. rewrite bool_decide_eq_true_2; reflexivity. Qed.

Lemma loop_done fuel e acc s : loop (S fuel) e e acc s = Ok acc s.
Proof. cbn. rewrite iter_neq_refl. reflexivity. Qed.

Lemma loop_step fuel it e acc s i :
  iter_neq it e = true ->
  load (m_node it) s = Some i ->
  loop (S fuel) it e acc s =
  loop fuel (Iterator (next i)) e (acc ++ [(data_of (m_node it), data i)]) s.
Proof.
  intros Hne Hl. cbn [loop]. rewrite Hne.
  unfold bind, iter_deref, iter_incr, field_data, read, field_next, bind.
  rewrite Hl. cbn [ref_node]. rewrite Hl. cbn [m_node]. rewrite Hl.
  reflexivity.
Qed.

Lemma iterate_empty fuel s :
  linked s -> m_container s = nullptr -> iterate (S fuel) s = Ok [] s.
Proof.
  unfold linked. intros Hl Hm. rewrite Hm in Hl.
  unfold iterate, begin, end_, bind, gets, ret. rewrite Hl.
  apply loop_done.
Qed.

Lemma iterate_set fuel s :
  linked s -> m_container s <> nullptr ->
  exists v, stored s = Some v /\
            iterate (S (S fuel)) s = Ok [(data_of (m_container s), v)] s.
Proof.
  unfold linked, stored.
  destruct (m_container s) as [| |n] eqn:Hm; intros Hl Hn;
    [congruence|contradiction|].
  destruct Hl as [Hb [d Hd]]. exists d. split.
  - cbn. rewrite Hd. reflexivity.
  - unfold iterate, begin, end_, bind, gets, ret. rewrite Hb.
    rewrite (loop_step _ _ _ _ _ _ (neq_end n) Hd).
    apply loop_done.
Qed.

Lemma empty_spec s : empty s = Ok (negb (to_bool (m_container s))) s.
Proof. unfold empty, bind, gets, ret. destruct (m_container s); reflexivity. Qed.

Lemma defined_spec s : defined s = Ok (to_bool (m_container s)) s.
Proof. unfold defined, bind, gets, ret. destruct (m_container s); reflexivity. Qed.

Lemma defined_false s : defined s = Ok false s -> m_container s = nullptr.
Proof.
  rewrite defined_spec. destruct (m_container s); cbn; congruence.
Qed.

Lemma defined_true s : defined s = Ok true s -> m_container s <> nullptr.
Proof.
  rewrite defined_spec. destruct (m_container s); cbn; congruence.
Qed.

(** ** Calls that leave the object alone *)

Lemma keeps_bind {A B} (m : M A) (k : A -> M B) s :
  keeps s (m s) -> (forall a, keeps s (k a s)) -> keeps s (bind m k s).
Proof.
  unfold bind. destruct (m s) as [a s'|e s'| |]; cbn; intros Hm Hk;
    [subst s'; apply Hk | exact Hm | exact I | exact I].
Qed.

Lemma keeps_field_data p s : keeps s (field_data p s).
Proof. unfold field_data. destruct (load p s); reflexivity. Qed.

Lemma keeps_field_next p s : keeps s (field_next p s).
Proof. unfold field_next. destruct (load p s); reflexivity. Qed.

Lemma keeps_read r s : keeps s (read r s).
Proof. unfold read. destruct (load (ref_node r) s); reflexivity. Qed.

#[local] Hint Resolve keeps_field_data keeps_field_next keeps_read : keeps.

Ltac keeps_step := apply keeps_bind; [auto with keeps; try reflexivity|].

Lemma keeps_get s : keeps s (get s).
Proof.
  unfold get. keeps_step.
  intros c. destruct (to_bool c); [auto with keeps | split; reflexivity].
Qed.

Lemma keeps_loop fuel : forall it e acc s, keeps s (loop fuel it e acc s).
Proof.
  induction fuel as [|fuel IH]; intros it e acc s; cbn [loop]; [exact I|].
  destruct (iter_neq it e); [|reflexivity].
  unfold iter_deref. keeps_step. intros r.
  keeps_step. intros v.
  apply keeps_bind; [|intros it'; apply IH].
  unfold iter_incr. keeps_step. reflexivity.
Qed.

Lemma keeps_iterate fuel s : keeps s (iterate fuel s).
Proof.
  unfold iterate. keeps_step. intros b.
  keeps_step. intros e. apply keeps_loop.
Qed.

Lemma keeps_run_op fuel o s : keeps s (run_op fuel o s).
Proof.
  destruct o; cbn [run_op]; (apply keeps_bind; [|reflexivity]).
  - rewrite empty_spec. reflexivity.
  - rewrite defined_spec. reflexivity.
  - apply keeps_get.
  - apply keeps_iterate.
Qed.

Lemma finishes_run_op fuel o s :
  linked s -> 2 <= fuel -> finishes (run_op fuel o s).
Proof.
  intros Hl Hf. destruct o; cbn [run_op]; unfold bind.
  - rewrite empty_spec. exact I.
  - rewrite defined_spec. exact I.
  - destruct (decide (m_container s = nullptr)) as [Hm|Hm].
    + rewrite (get_empty s Hm). exact I.
    + destruct (get_set s Hl Hm) as (v & _ & -> & _). exact I.
  - destruct fuel as [|[|fuel]]; [lia|lia|].
    destruct (decide (m_container s = nullptr)) as [Hm|Hm].
    + rewrite (iterate_empty _ s Hl Hm). exact I.
    + destruct (iterate_set fuel s Hl Hm) as (v & _ & ->). exact I.
Qed.

Lemma run_ops_linked fuel os : forall s,
  linked s -> 2 <= fuel -> exists vs, run_ops fuel os s = Some (vs, s).
Proof.
  induction os as [|o os IH]; intros s Hl Hf; cbn [run_ops]; [eauto|].
  pose proof (keeps_run_op fuel o s) as Hk.
  pose proof (finishes_run_op fuel o s Hl Hf) as Ht.
  destruct (run_op fuel o s) as [v s'|e s'| |]; cbn in Hk, Ht;
    try contradiction; [|destruct Hk as [Hk _]]; subst s';
    destruct (IH s Hl Hf) as [vs ->]; eauto.
Qed.

(** ** Access *)

(** C1. On a container whose presence is false, [get] leaves by a
    [runtime_error] whose text opens with the access-before-set sentence
    (so nothing is returned, neither a default nor null); on a container
    whose presence is true it returns, without an exception, a reference
    through which the contained value is read. *)
Theorem get_contract (s : state) (Hc : container s) :
  (defined s = Ok false s ->
     get s = Throw (runtime_error get_what) s /\
     String.prefix "The Optional needs to be set before access"%string get_what = true /\
     forall r s', get s <> Ok r s') /\
  (defined s = Ok true s ->
     exists r v, stored s = Some v /\ get s = Ok r s /\ read r s = Ok v s).
Proof.
  split.
  - intros Hd%defined_false. rewrite (get_empty s Hd).
    split; [reflexivity|]. split; [reflexivity|]. discriminate.
  - intros Hd%defined_true.
    destruct (get_set s (container_linked s Hc) Hd) as (v & Hs & Hg & Hr).
    eauto 6.
Qed.

(** ** Emptiness queries *)

(** C7. [empty] and [defined] always return, leave the object as it
    was, and answer with opposite booleans. *)
Theorem emptiness_duality (s : state) :
  exists b, defined s = Ok b s /\ empty s = Ok (negb b) s.
Proof.
  exists (to_bool (m_container s)). split.
  - apply defined_spec.
  - apply empty_spec.
Qed.

(** ** Construction *)

(** C9. The no-argument constructor returns normally, on any heap, an
    object with a null [m_container], for which [empty] answers true. *)
Theorem default_invariant (h : list Item) :
  exists s, Optional_default h = Ok tt s /\
            m_container s = nullptr /\
            empty s = Ok true s /\
            defined s = Ok false s.
Proof. exists (init h). repeat split. Qed.

(** C3. A container built from a value [d], or emplaced from arguments
    that [T]'s constructor turns into [v], is defined, and [get] returns
    a reference through which [d] (respectively [v]) is read. *)
Theorem construction_invariant (h : list Item) :
  (forall d,
      exists s r, Optional_copy d h = Ok tt s /\
                  defined s = Ok true s /\
                  get s = Ok r s /\ read r s = Ok d s) /\
  (forall args v,
      T_ctor args = inr v ->
      exists s r, Optional_emplace args h = Ok tt s /\
                  defined s = Ok true s /\
                  get s = Ok r s /\ read r s = Ok v s).
Proof.
  assert (Hfill : forall v,
             defined (filled h v) = Ok true (filled h v) /\
             get (filled h v) = Ok (data_of (addr_heap (length h))) (filled h v) /\
             read (data_of (addr_heap (length h))) (filled h v) = Ok v (filled h v)).
  { intros v. split; [reflexivity|].
    unfold get, read, bind, gets, field_data. cbn [filled m_container to_bool ref_node].
    rewrite load_filled. auto. }
  split.
  - intros d. exists (filled h d), (data_of (addr_heap (length h))).
    unfold Optional_copy. rewrite update_init. cbn.
    destruct (Hfill d) as (? & ? & ?). auto.
  - intros args v Hv. exists (filled h v), (data_of (addr_heap (length h))).
    unfold Optional_emplace. rewrite update_init, Hv.
    destruct (Hfill v) as (? & ? & ?). auto.
Qed.

(** ** Iteration agrees with access *)

(** C10. On a set container, dereferencing [begin()] and calling [get]
    return the same reference, hence the same value. *)
Theorem begin_deref_is_get (s : state) (Hc : container s)
    (Hd : defined s = Ok true s) :
  exists b r v, begin s = Ok b s /\
                iter_deref b s = Ok r s /\
                get s = Ok r s /\
                read r s = Ok v s /\
                stored s = Some v.
Proof.
  apply defined_true in Hd.
  pose proof (container_linked s Hc) as Hl.
  destruct (get_set s Hl Hd) as (v & Hs & Hg & Hr).
  exists (Iterator (m_container s)), (data_of (m_container s)), v.
  repeat split; try assumption.
  - unfold linked in Hl. unfold begin, bind, gets, ret.
    destruct (m_container s); [congruence|contradiction|].
    destruct Hl as [-> _]. reflexivity.
  - unfold iter_deref. cbn [m_node].
    unfold get, bind, gets in Hg.
    destruct (m_container s); [congruence| |]; exact Hg.
Qed.

(** ** Iteration *)

(** X11. On a container built by one of the three declared constructors,
    with fuel for two tests of the loop condition, the traversal of an
    empty container returns no element, the traversal of a set container
    returns exactly the stored value (through a reference to it), and two
    traversals in a row return the same list. *)
Theorem iteration_cardinality (fuel : nat) (s : state)
    (Hc : container s) (Hf : 2 <= fuel) :
  (defined s = Ok false s -> iterate fuel s = Ok [] s) /\
  (defined s = Ok true s ->
     exists r v, stored s = Some v /\ iterate fuel s = Ok [(r, v)] s) /\
  (exists l, iterate fuel s = Ok l s /\
             (l1 <- iterate fuel ;; l2 <- iterate fuel ;; ret (l1, l2)) s
             = Ok (l, l) s).
Proof.
  pose proof (container_linked s Hc) as Hl.
  destruct fuel as [|[|fuel]]; [lia|lia|].
  assert (He : m_container s = nullptr -> iterate (S (S fuel)) s = Ok [] s)
    by (intros Hm; apply iterate_empty; assumption).
  split; [|split].
  - intros Hd%defined_false. auto.
  - intros Hd%defined_true.
    destruct (iterate_set fuel s Hl Hd) as (v & Hs & Hi). eauto.
  - assert (Hex : exists l, iterate (S (S fuel)) s = Ok l s).
    { destruct (decide (m_container s = nullptr)) as [Hm|Hm]; [eauto|].
      destruct (iterate_set fuel s Hl Hm) as (v & _ & Hi). eauto. }
    destruct Hex as [l Hi]. exists l. split; [exact Hi|].
    unfold bind. rewrite Hi, Hi. reflexivity.
Qed.

(** ** Re-setting *)

(** C4. A second [update] on a set object fails and leaves the object
    exactly as it was; it fails with the "Something bad happened"
    [runtime_error] whenever [T]'s constructor returns.  Neither a public
    constructor nor a public call ever ends in that error. *)
Theorem no_reset :
  (forall s args,
      defined s = Ok true s ->
      exists e, update T_ctor args s = Throw e s /\
                (forall v, T_ctor args = inr v ->
                           e = runtime_error update_what)) /\
  (forall s d,
      defined s = Ok true s ->
      update T_copy d s = Throw (runtime_error update_what) s) /\
  (forall h s', Optional_default h <> Throw (runtime_error update_what) s') /\
  (forall d h s', Optional_copy d h <> Throw (runtime_error update_what) s') /\
  (forall args h s',
      Optional_emplace args h <> Throw (runtime_error update_what) s') /\
  (forall fuel o s s',
      run_op fuel o s <> Throw (runtime_error update_what) s').
Proof.
  repeat apply conj.
  - intros s args Hd%defined_true. rewrite (update_again _ _ _ Hd).
    destruct (T_ctor args) as [e|v]; eexists; (split; [reflexivity|]);
      intros v' Hv; congruence.
  - intros s d Hd%defined_true. rewrite (update_again _ _ _ Hd). reflexivity.
  - discriminate.
  - intros d h s'. unfold Optional_copy. rewrite update_init. discriminate.
  - intros args h s'. unfold Optional_emplace. rewrite update_init.
    destruct (T_ctor args); discriminate.
  - intros fuel o s s' H. pose proof (keeps_run_op fuel o s) as Hk.
    rewrite H in Hk. destruct Hk as [_ Hk]. discriminate Hk.
Qed.

(** ** The end marker *)

Lemma container_m_end s :
  container s -> data (m_end s) = pointerInit T_default.
Proof.
  intros Hc. destruct (container_cases s Hc) as [[h ->] | (h & v & ->)];
    reflexivity.
Qed.

Lemma count_steps_done fuel e n s : count_steps (S fuel) e e n s = Ok n s.
Proof.
  cbn [count_steps]. unfold iter_eq.
  rewrite bool_decide_eq_true_2; reflexivity.
Qed.

Lemma count_steps_step fuel it e n s i :
  iter_eq it e = false ->
  load (m_node it) s = Some i ->
  count_steps (S fuel) it e n s
  = count_steps fuel (Iterator (next i)) e (S n) s.
Proof.
  intros Hne Hl. cbn [count_steps]. rewrite Hne.
  unfold bind, iter_incr, bind, field_next. rewrite Hl. reflexivity.
Qed.

Lemma steps_to_end_linked fuel s :
  linked s ->
  steps_to_end (S (S fuel)) s
  = Ok (if to_bool (m_container s) then 1 else 0) s.
Proof.
  unfold linked, steps_to_end, begin, end_, bind, gets, ret.
  destruct (m_container s) as [| |n]; [|contradiction|].
  - intros ->. reflexivity.
  - intros [-> [d Hd]].
    rewrite (count_steps_step _ (Iterator (addr_heap n))
               (Iterator addr_end) _ _ _ eq_refl Hd).
    apply count_steps_done.
Qed.

(** C6, as the code has it.  The end marker is the address of the
    embedded [m_end], whatever the state.  On a container built by one of
    the three declared constructors it is never the node that holds the
    value, and counting increments from [begin()] reaches it after none on
    an empty container and after one on a set container.  Dereferencing it
    is not guarded: it returns a reference to [m_end.data], which holds
    the default-initialised [T].  Only the traversal keeps away from it:
    no reference it yields designates [m_end]. *)
Theorem end_marker_unguarded (fuel : nat) (s : state)
    (Hc : container s) (Hf : 2 <= fuel) :
  end_ s = Ok (Iterator addr_end) s /\
  m_container s <> addr_end /\
  steps_to_end fuel s = Ok (if to_bool (m_container s) then 1 else 0) s /\
  deref_end s = Ok (data_of addr_end) s /\
  read (data_of addr_end) s = Ok (pointerInit T_default) s /\
  (forall l r v, iterate fuel s = Ok l s -> (r, v) ∈ l ->
                 ref_node r <> addr_end).
Proof.
  pose proof (container_linked s Hc) as Hl.
  assert (Hne : m_container s <> addr_end).
  { unfold linked in Hl. intros Hm. rewrite Hm in Hl. exact Hl. }
  destruct fuel as [|[|fuel]]; [lia|lia|].
  repeat apply conj.
  - reflexivity.
  - exact Hne.
  - apply steps_to_end_linked. exact Hl.
  - reflexivity.
  - unfold read. cbn. rewrite (container_m_end s Hc). reflexivity.
  - intros l r v Hi Hin.
    destruct (decide (m_container s = nullptr)) as [Hm|Hm].
    + rewrite (iterate_empty _ s Hl Hm) in Hi. injection Hi as <-.
      inversion Hin.
    + destruct (iterate_set fuel s Hl Hm) as (v' & _ & Hi').
      rewrite Hi' in Hi. injection Hi as <-.
      apply list_elem_of_singleton in Hin. injection Hin as -> ->.
      exact Hne.
Qed.

(** ** Set once *)

(** C8. Whatever public calls are made on a container, in whatever
    order, and whether they return or throw, each of them finishes and the
    object afterwards is the object before: same [m_container], same
    stored value, same everything. *)
Theorem set_once (fuel : nat) (os : list op) (s : state)
    (Hc : container s) (Hf : 2 <= fuel) :
  exists vs s',
    run_ops fuel os s = Some (vs, s') /\
    defined s' = defined s /\
    stored s' = stored s /\
    s' = s.
Proof.
  destruct (run_ops_linked fuel os s (container_linked s Hc) Hf) as [vs H].
  exists vs, s. auto.
Qed.

(** * The implicit copy constructor *)

Lemma place_lookup_end s :
  (place s).1 !! length (heap s)
  = Some (outside_item (length (heap s)) (m_end s)).
Proof.
  cbn. apply list_lookup_middle. rewrite length_fmap. reflexivity.
Qed.

Lemma place_lookup_cell s n i :
  heap s !! n = Some i ->
  (place s).1 !! n = Some (outside_item (length (heap s)) i).
Proof.
  intros Hn. cbn. apply lookup_app_l_Some.
  rewrite list_lookup_fmap, Hn. reflexivity.
Qed.

(** The copy of a linked object: same [m_container], same stored value,
    and an [m_end] that leads into the ring of the object copied. *)
Lemma copy_of_linked s :
  linked s ->
  exists b, copy_of s = Ok tt b /\
            m_container b = m_container s /\
            stored b = stored s /\
            foreign_ring b.
Proof.
  intros Hl. unfold copy_of, Optional_implicit_copy.
  change (end_cell (place s).2) with (length (heap s)).
  rewrite place_lookup_end. eexists. split; [reflexivity|].
  unfold linked in Hl. unfold stored, foreign_ring.
  cbn [m_container m_end heap Item_copy outside_item next data place snd
       container_ptr].
  pose proof (place_lookup_end s) as He.
  destruct (m_container s) as [| |n] eqn:Hm; [|contradiction|].
  - cbn [outside load]. repeat split.
    exists (length (heap s)), (length (heap s)).
    exists (outside_item (length (heap s)) (m_end s)),
           (outside_item (length (heap s)) (m_end s)).
    cbn [outside_item next]. rewrite Hl.
    repeat split; try exact He; reflexivity.
  - destruct Hl as [Hb [d Hd]]. cbn [outside load].
    pose proof (place_lookup_cell s n _ Hd) as Hn.
    repeat split.
    + cbn [heap]. rewrite Hn, Hd. reflexivity.
    + exists n, (length (heap s)).
      exists (outside_item (length (heap s)) {| next := addr_end; data := d |}),
             (outside_item (length (heap s)) (m_end s)).
      cbn [outside_item next]. rewrite Hb.
      repeat split; try exact Hn; try exact He; reflexivity.
Qed.

Lemma loop_ring b j k ij ik :
  heap b !! j = Some ij -> next ij = addr_heap k ->
  heap b !! k = Some ik -> next ik = addr_heap j ->
  forall fuel acc,
    loop fuel (Iterator (addr_heap j)) (Iterator addr_end) acc b = OutOfFuel /\
    loop fuel (Iterator (addr_heap k)) (Iterator addr_end) acc b = OutOfFuel.
Proof.
  intros Hj Hjk Hk Hkj fuel.
  induction fuel as [|fuel IH]; intros acc; [split; reflexivity|].
  split.
  - rewrite (loop_step _ (Iterator (addr_heap j)) _ _ _ ij (neq_end j) Hj).
    rewrite Hjk. apply IH.
  - rewrite (loop_step _ (Iterator (addr_heap k)) _ _ _ ik (neq_end k) Hk).
    rewrite Hkj. apply IH.
Qed.

Lemma iterate_foreign_ring b fuel :
  foreign_ring b -> iterate fuel b = OutOfFuel.
Proof.
  intros (j & k & ij & ik & Hb & Hj & Hjk & Hk & Hkj).
  unfold iterate, begin, end_, bind, gets, ret. rewrite Hb.
  apply (loop_ring b j k ij ik Hj Hjk Hk Hkj).
Qed.

Lemma advance_ring b j k ij ik :
  heap b !! j = Some ij -> next ij = addr_heap k ->
  heap b !! k = Some ik -> next ik = addr_heap j ->
  forall n,
    (exists it, advance n (Iterator (addr_heap j)) b = Ok it b /\
                iter_eq it (Iterator addr_end) = false) /\
    (exists it, advance n (Iterator (addr_heap k)) b = Ok it b /\
                iter_eq it (Iterator addr_end) = false).
Proof.
  intros Hj Hjk Hk Hkj n.
  induction n as [|n [IHj IHk]]; [split; eexists; split; reflexivity|].
  split; cbn [advance]; unfold bind, iter_incr, bind, field_next;
    cbn [m_node load].
  - rewrite Hj, Hjk. exact IHk.
  - rewrite Hk, Hkj. exact IHj.
Qed.

(** C2, where the code departs from it.  A container copied by the
    implicit copy constructor answers [defined] as the original does and
    keeps the same stored value, but its traversal never reaches [end()]:
    whatever the fuel, it is still running when the fuel is spent. *)
Theorem implicit_copy_never_ends (s : state) (Hc : container s) :
  exists b x,
    copy_of s = Ok tt b /\
    defined s = Ok x s /\ defined b = Ok x b /\
    stored b = stored s /\
    forall fuel, iterate fuel b = OutOfFuel.
Proof.
  destruct (copy_of_linked s (container_linked s Hc)) as (b & Hb & Hm & Hs & Hr).
  exists b, (to_bool (m_container s)).
  split; [exact Hb|]. split; [apply defined_spec|].
  split; [rewrite <- Hm; apply defined_spec|].
  split; [exact Hs|].
  intros fuel. apply iterate_foreign_ring. exact Hr.
Qed.

(** * update with a throwing assignment *)

(** [update_assigning] on an object whose [m_container] is null, when
    [T]'s constructor returns [v]: the assignment decides. *)
Lemma update_assigning_fresh {A} (ctor : A -> E + T) (args : A) (s : state) v :
  m_container s = nullptr ->
  ctor args = inr v ->
  update_assigning ctor args s =
  match T_assign (pointerInit T_default) v with
  | inr w =>
      Ok tt {| m_end := set_next (addr_heap (length (heap s))) (m_end s);
               m_container := addr_heap (length (heap s));
               heap := heap s ++ [{| next := addr_end; data := w |}] |}
  | inl (e, w) =>
      Throw (T_exception e)
        {| m_end := m_end s;
           m_container := addr_heap (length (heap s));
           heap := heap s ++
                   [{| next := addr_heap (length (heap s)); data := w |}] |}
  end.
Proof.
  intros Hm Hv. unfold update_assigning, construct_T, bind. rewrite Hv.
  cbn. rewrite Hm. cbn. unfold assign_data, load, store.
  cbn [heap set_heap set_m_container new_Item m_container].
  rewrite list_lookup_middle by reflexivity. cbn [data Item_ctor].
  destruct (T_assign (pointerInit T_default) v) as [[e w]|w].
  - rewrite insert_app_r_alt by (cbn; lia). rewrite Nat.sub_diag.
    reflexivity.
  - rewrite insert_app_r_alt by (cbn; lia). rewrite Nat.sub_diag. cbn.
    rewrite list_lookup_middle by reflexivity.
    cbn. rewrite insert_app_r_alt by (cbn; lia).
    rewrite Nat.sub_diag. reflexivity.
Qed.

Lemma update_assigning_ctor_throws {A} (ctor : A -> E + T) (args : A) s e :
  ctor args = inl e ->
  update_assigning ctor args s = Throw (T_exception e) s.
Proof.
  intros He. unfold update_assigning, construct_T, bind. rewrite He.
  reflexivity.
Qed.

Lemma update_assigning_again {A} (ctor : A -> E + T) (args : A) s v :
  ctor args = inr v ->
  m_container s <> nullptr ->
  update_assigning ctor args s = Throw (runtime_error update_what) s.
Proof.
  intros Hv Hm. unfold update_assigning, construct_T, bind. rewrite Hv.
  cbn. destruct (m_container s); [congruence| |]; reflexivity.
Qed.

(** With an assignment that stores the value and returns,
    [update_assigning] is [update]. *)
Lemma update_assigning_value {A} (ctor : A -> E + T) (args : A) (s : state) :
  (forall old v, T_assign old v = inr v) ->
  update_assigning ctor args s = update ctor args s.
Proof.
  intros Hval. destruct (ctor args) as [e|v] eqn:Hc.
  - rewrite (update_assigning_ctor_throws _ _ _ _ Hc).
    unfold update, construct_T, bind. rewrite Hc. reflexivity.
  - destruct (decide (m_container s = nullptr)) as [Hm|Hm].
    + rewrite (update_assigning_fresh _ _ _ _ Hm Hc), Hval.
      rewrite (update_fresh _ _ _ Hm), Hc. reflexivity.
    + rewrite (update_assigning_again _ _ _ _ Hc Hm).
      rewrite (update_again _ _ _ Hm), Hc. reflexivity.
Qed.

(** C5, where the code departs from it.  When [T]'s constructor returns
    and [T]'s assignment on line 313 throws, the emplacement constructor
    leaves by that exception with [m_container] already pointing to the
    new [Item]: the object answers [defined], the heap has grown by a cell
    that holds no value of the caller's and points to itself, and [m_end]
    still points to itself. *)
Theorem update_assigning_half_done (args : Args) (h : list Item)
    (v w : T) (e : E)
    (Hv : T_ctor args = inr v)
    (He : T_assign (pointerInit T_default) v = inl (e, w)) :
  exists s',
    Optional_emplace_assigning args h = Throw (T_exception e) s' /\
    s' <> init h /\
    m_container s' = addr_heap (length h) /\
    defined s' = Ok true s' /\
    heap s' = h ++ [{| next := addr_heap (length h); data := w |}] /\
    next (m_end s') = addr_end.
Proof.
  unfold Optional_emplace_assigning.
  rewrite (update_assigning_fresh T_ctor args (init h) v eq_refl Hv), He.
  eexists. split; [reflexivity|].
  split; [intros H; discriminate (f_equal m_container H)|].
  repeat split.
Qed.

(** * Further properties of the code *)

(** ** begin, end and the comparison of iterators *)

(** X1. On a container built by one of the three declared constructors,
    [begin() == end()] is what [empty()] answers and [begin() != end()] is
    what [defined()] answers.  On the copy the implicit copy constructor
    makes of it, [begin() == end()] is false whatever [empty()] answers,
    and [empty()] answers as on the original. *)
Theorem begin_is_end_iff_empty (s : state) (Hc : container s) :
  (exists b e, begin s = Ok b s /\ end_ s = Ok e s /\
               empty s = Ok (iter_eq b e) s /\
               defined s = Ok (iter_neq b e) s) /\
  (exists c b e x, copy_of s = Ok tt c /\
                   begin c = Ok b c /\ end_ c = Ok e c /\
                   iter_eq b e = false /\
                   empty s = Ok x s /\ empty c = Ok x c).
Proof.
  pose proof (container_linked s Hc) as Hl. split.
  - exists (Iterator (next (m_end s))), (Iterator addr_end).
    split; [reflexivity|]. split; [reflexivity|].
    rewrite empty_spec, defined_spec. unfold linked in Hl.
    destruct (m_container s) as [| |n]; [|contradiction|].
    + rewrite Hl. split; reflexivity.
    + destruct Hl as [-> _]. split; reflexivity.
  - destruct (copy_of_linked s Hl)
      as (c & Hcp & Hm & _ & (j & k & ij & ik & Hb & _)).
    exists c, (Iterator (addr_heap j)), (Iterator addr_end),
           (negb (to_bool (m_container s))).
    split; [exact Hcp|].
    split; [unfold begin, bind, gets, ret; rewrite Hb; reflexivity|].
    split; [reflexivity|]. split; [reflexivity|].
    split; [apply empty_spec|]. rewrite <- Hm. apply empty_spec.
Qed.

Lemma incr_begin s :
  linked s ->
  iter_incr (Iterator (next (m_end s))) s = Ok (Iterator addr_end) s.
Proof.
  unfold linked, iter_incr, bind, field_next.
  destruct (m_container s) as [| |n]; [|contradiction|].
  - intros Hl. rewrite Hl. cbn. rewrite Hl. reflexivity.
  - intros [-> [d Hd]]. cbn. rewrite Hd. reflexivity.
Qed.

Lemma incr_end s :
  iter_incr (Iterator addr_end) s = Ok (Iterator (next (m_end s))) s.
Proof. reflexivity. Qed.

(** X2. The two nodes of a container built by one of the three declared
    constructors form a ring: [k] increments take [begin()] to itself when
    [k] is even and to [end()] when it is odd, and the other way round from
    [end()]; no number of increments is undefined.  (On an empty container
    [begin()] and [end()] are the same position.)  On the copy the implicit
    copy constructor makes of it, the ring is the original's: no number of
    increments from [begin()] is undefined, and none arrives at [end()]. *)
Theorem advance_wraps (k : nat) (s : state) (Hc : container s) :
  (exists b e, begin s = Ok b s /\ end_ s = Ok e s /\
               advance k b s = Ok (if Nat.even k then b else e) s /\
               advance k e s = Ok (if Nat.even k then e else b) s) /\
  (exists c b e it, copy_of s = Ok tt c /\
                    begin c = Ok b c /\ end_ c = Ok e c /\
                    advance k b c = Ok it c /\
                    iter_eq it e = false).
Proof.
  pose proof (container_linked s Hc) as Hl. split.
  - exists (Iterator (next (m_end s))), (Iterator addr_end).
    split; [reflexivity|]. split; [reflexivity|].
    induction k as [|k [IHb IHe]]; [split; reflexivity|].
    rewrite Nat.even_succ, <- Nat.negb_even.
    split; cbn [advance]; unfold bind.
    + rewrite (incr_begin s Hl), IHe. destruct (Nat.even k); reflexivity.
    + rewrite incr_end, IHb. destruct (Nat.even k); reflexivity.
  - destruct (copy_of_linked s Hl)
      as (c & Hcp & _ & _ & (j & l & ij & il & Hb & Hj & Hjl & Hl' & Hlj)).
    destruct (advance_ring c j l ij il Hj Hjl Hl' Hlj k)
      as [(it & Hit & Hne) _].
    exists c, (Iterator (addr_heap j)), (Iterator addr_end), it.
    split; [exact Hcp|].
    split; [unfold begin, bind, gets, ret; rewrite Hb; reflexivity|].
    split; [reflexivity|]. split; assumption.
Qed.

(** ** Allocation *)

(** X3. Construction on a heap [h] leaves every cell of [h] as it was.
    The no-argument constructor adds no cell; the copy and emplacement
    constructors add exactly one, at the end, which [m_container] points to
    and which holds the value in front of [m_end]; an emplacement whose
    [T] constructor throws adds none. *)
Theorem construction_allocates (h : list Item) :
  (forall s, Optional_default h = Ok tt s -> heap s = h) /\
  (forall d s,
      Optional_copy d h = Ok tt s ->
      heap s = h ++ [{| next := addr_end; data := d |}] /\
      m_container s = addr_heap (length h)) /\
  (forall args s,
      Optional_emplace args h = Ok tt s ->
      exists v, T_ctor args = inr v /\
                heap s = h ++ [{| next := addr_end; data := v |}] /\
                m_container s = addr_heap (length h)) /\
  (forall args e s, Optional_emplace args h = Throw e s -> heap s = h).
Proof.
  repeat apply conj.
  - intros s H. unfold Optional_default, ret in H. injection H as <-.
    reflexivity.
  - intros d s H. unfold Optional_copy in H. rewrite update_init in H.
    cbn in H. injection H as <-. split; reflexivity.
  - intros args s H. unfold Optional_emplace in H. rewrite update_init in H.
    destruct (T_ctor args) as [e|v]; [discriminate|].
    injection H as <-. exists v. repeat split.
  - intros args e s H. unfold Optional_emplace in H. rewrite update_init in H.
    destruct (T_ctor args) as [e'|v]; [|discriminate].
    injection H as _ <-. reflexivity.
Qed.

(** ** Traversal of any state *)

Lemma quiet_bind {A B} (m : M A) (k : A -> M B) s :
  quiet (m s) -> (forall a s', quiet (k a s')) -> quiet (bind m k s).
Proof.
  unfold bind. destruct (m s) as [a s'|e s'| |]; cbn; intros Hm Hk;
    [apply Hk | contradiction | exact I | exact I].
Qed.

Lemma quiet_field_data p s : quiet (field_data p s).
Proof. unfold field_data. destruct (load p s); exact I. Qed.

Lemma quiet_field_next p s : quiet (field_next p s).
Proof. unfold field_next. destruct (load p s); exact I. Qed.

Lemma quiet_read r s : quiet (read r s).
Proof. unfold read. destruct (load (ref_node r) s); exact I. Qed.

Lemma quiet_loop fuel : forall it e acc s, quiet (loop fuel it e acc s).
Proof.
  induction fuel as [|fuel IH]; intros it e acc s; cbn [loop]; [exact I|].
  destruct (iter_neq it e); [|exact I].
  apply quiet_bind; [apply quiet_field_data|]. intros r s1.
  apply quiet_bind; [apply quiet_read|]. intros v s2.
  apply quiet_bind; [|intros it' s3; apply IH].
  unfold iter_incr. apply quiet_bind; [apply quiet_field_next|].
  intros n s3. exact I.
Qed.

(** X4. The traversal loop never throws, whatever state the object is in
    and however much fuel it has; when it returns, the object is as it
    was. *)
Theorem iterate_never_throws (fuel : nat) (s : state) :
  (forall e s', iterate fuel s <> Throw e s') /\
  (forall l s', iterate fuel s = Ok l s' -> s' = s).
Proof.
  split.
  - intros e s' H.
    assert (Hq : quiet (iterate fuel s)).
    { unfold iterate. apply quiet_bind; [exact I|]. intros b s1.
      apply quiet_bind; [exact I|]. intros e0 s2. apply quiet_loop. }
    rewrite H in Hq. exact Hq.
  - intros l s' H. pose proof (keeps_iterate fuel s) as Hk.
    rewrite H in Hk. exact Hk.
Qed.

(** ** Writing through the reference *)

Lemma linked_filled h v : linked (filled h v).
Proof. split; [reflexivity|]. exists v. apply (load_filled h v). Qed.

Lemma assign_filled h v0 v :
  assign (data_of (addr_heap (length h))) v (filled h v0)
  = Ok tt (filled h v).
Proof.
  unfold assign, store. cbn [ref_node filled heap].
  rewrite list_lookup_middle by reflexivity.
  rewrite insert_app_r_alt by (cbn; lia). rewrite Nat.sub_diag.
  reflexivity.
Qed.

(** X5. The reference [get] returns on a set container is the stored
    object itself: after an assignment through it the container is still
    set, with the same nodes, and both [get] and the traversal read the
    assigned value. *)
Theorem write_through_get (fuel : nat) (s : state) (v : T)
    (Hc : container s) (Hd : defined s = Ok true s) (Hf : 2 <= fuel) :
  exists r s',
    get s = Ok r s /\
    assign r v s = Ok tt s' /\
    defined s' = Ok true s' /\
    get s' = Ok r s' /\
    read r s' = Ok v s' /\
    iterate fuel s' = Ok [(r, v)] s' /\
    m_container s' = m_container s /\
    next (m_end s') = next (m_end s).
Proof.
  destruct (container_cases s Hc) as [[h ->] | (h & v0 & ->)];
    [discriminate Hd|].
  destruct fuel as [|[|fuel]]; [lia|lia|].
  exists (data_of (addr_heap (length h))), (filled h v).
  assert (Hn : m_container (filled h v) <> nullptr) by discriminate.
  destruct (get_set _ (linked_filled h v0) Hn) as (w0 & _ & Hg0 & _).
  destruct (get_set _ (linked_filled h v) Hn) as (w & Hs & Hg & Hr).
  destruct (iterate_set fuel _ (linked_filled h v) Hn) as (w' & Hs' & Hi).
  assert (w = v).
  { unfold stored in Hs. cbn [filled m_container] in Hs.
    rewrite load_filled in Hs. cbn in Hs. congruence. }
  assert (w' = v) by congruence. subst w w'.
  repeat apply conj; try reflexivity; try assumption.
  apply assign_filled.
Qed.

(** ** update after update *)

(** X6. Two [update]s in a row on a fresh object never both take effect.
    If the first [T] constructor throws, nothing is stored; otherwise the
    first value stays stored and the second call leaves by the exception of
    its own [T] constructor when that throws (it runs before the test of
    [m_container]) and by the "Something bad happened" error when not. *)
Theorem update_twice {A B} (ctor1 : A -> E + T) (ctor2 : B -> E + T)
    (a : A) (b : B) (h : list Item) :
  (update ctor1 a ;;; update ctor2 b) (init h) =
  match ctor1 a with
  | inl e1 => Throw (T_exception e1) (init h)
  | inr v1 =>
      match ctor2 b with
      | inl e2 => Throw (T_exception e2) (filled h v1)
      | inr _ => Throw (runtime_error update_what) (filled h v1)
      end
  end.
Proof.
  unfold bind. rewrite update_init.
  destruct (ctor1 a) as [e1|v1]; [reflexivity|].
  apply update_again. discriminate.
Qed.

(** ** Destruction *)

(** X7. When [T] is not a pointer type, destroying a container is always
    defined, deletes no [T], and releases exactly the cell [m_container]
    points to: none for an empty container, one for a set one. *)
Theorem dtor_value_type (s : state)
    (Hn : T_nullptr = None) (Hc : container s) :
  Optional_dtor s
  = Some (if to_bool (m_container s) then [m_container s] else [], []).
Proof.
  unfold Optional_dtor, delete_Item, Item_dtor, pointerDelete. rewrite Hn.
  destruct (container_cases s Hc) as [[h ->] | (h & v & ->)].
  - reflexivity.
  - cbn [filled m_container heap].
    rewrite list_lookup_middle by reflexivity. reflexivity.
Qed.

(** X8. When [T] is a pointer type, destroying a container deletes the
    stored pointer, once, if it is not null, and nothing else (the pointer in
    [m_end] is null); this is undefined when the stored pointer did not come
    from a new-expression.  The cell of a set container is released. *)
Theorem dtor_pointer_type (null : T) (s : state)
    (Hn : T_nullptr = Some null) (Hc : container s) :
  Optional_dtor s =
  match stored s with
  | None => Some ([], [])
  | Some v =>
      if decide (v = null) then Some ([m_container s], [])
      else if from_new v then Some ([m_container s], [v])
      else None
  end.
Proof.
  unfold Optional_dtor, delete_Item, Item_dtor, pointerDelete, stored.
  rewrite Hn.
  destruct (container_cases s Hc) as [[h ->] | (h & v & ->)].
  - cbn. unfold pointerInit. rewrite Hn.
    rewrite decide_True by reflexivity. reflexivity.
  - cbn [filled m_container heap m_end data load].
    rewrite list_lookup_middle by reflexivity. cbn [fmap option_fmap option_map data].
    unfold pointerInit. rewrite Hn.
    rewrite (decide_True (P := null = null)) by reflexivity.
    destruct (decide (v = null)); [reflexivity|].
    destruct (from_new v); reflexivity.
Qed.

(** X9. [pointerDelete] deletes at most its argument, and what it leaves
    in the argument is safe to pass again: the second call deletes
    nothing. *)
Theorem pointerDelete_once (d d' : T) (deleted : list T)
    (Hd : pointerDelete d = Some (deleted, d')) :
  pointerDelete d' = Some ([], d') /\
  (deleted = [] /\ d' = d \/
   deleted = [d] /\ from_new d = true /\ T_nullptr = Some d').
Proof.
  unfold pointerDelete in *.
  destruct T_nullptr as [null|].
  - destruct (decide (d = null)) as [->|Hne].
    + injection Hd as <- <-. rewrite decide_True by reflexivity. auto.
    + destruct (from_new d) eqn:Hfn; [|discriminate].
      injection Hd as <- <-. rewrite decide_True by reflexivity. auto.
  - injection Hd as <- <-. auto.
Qed.

(** ** Failures that leave no trace *)

(** X10. Whatever [T]'s assignment does, an [update] that fails in [T]'s
    constructor or at the test of [m_container], and a public call that
    throws, leave the object as they found it; an emplacement whose [T]
    constructor throws [e] ends in [e] on an object that is still empty,
    with nothing stored and the heap untouched; and an [update] that
    returns has linked in the value the assignment produced. *)
Theorem failure_before_mutation :
  (forall A (ctor : A -> E + T) args s e,
      ctor args = inl e ->
      update_assigning ctor args s = Throw (T_exception e) s) /\
  (forall A (ctor : A -> E + T) args s v,
      ctor args = inr v ->
      m_container s <> nullptr ->
      update_assigning ctor args s = Throw (runtime_error update_what) s) /\
  (forall fuel o s e s', run_op fuel o s = Throw e s' -> s' = s) /\
  (forall args e h,
      T_ctor args = inl e ->
      Optional_emplace_assigning args h = Throw (T_exception e) (init h) /\
      empty (init h) = Ok true (init h) /\
      stored (init h) = None /\
      heap (init h) = h) /\
  (forall A (ctor : A -> E + T) args s s',
      update_assigning ctor args s = Ok tt s' ->
      linked s' /\
      exists v w, ctor args = inr v /\
                  T_assign (pointerInit T_default) v = inr w /\
                  stored s' = Some w).
Proof.
  repeat apply conj.
  - intros A ctor args s e He. apply update_assigning_ctor_throws. exact He.
  - intros A ctor args s v Hv Hm. apply (update_assigning_again _ _ _ v Hv Hm).
  - intros fuel o s e s' H. pose proof (keeps_run_op fuel o s) as Hk.
    rewrite H in Hk. apply Hk.
  - intros args e h He. unfold Optional_emplace_assigning.
    rewrite (update_assigning_ctor_throws _ _ _ _ He). repeat split.
  - intros A ctor args s s' H.
    destruct (ctor args) as [e|v] eqn:Hc.
    { rewrite (update_assigning_ctor_throws _ _ _ _ Hc) in H. discriminate. }
    destruct (decide (m_container s = nullptr)) as [Hm|Hm].
    2:{ rewrite (update_assigning_again _ _ _ _ Hc Hm) in H. discriminate. }
    rewrite (update_assigning_fresh _ _ _ _ Hm Hc) in H.
    destruct (T_assign (pointerInit T_default) v) as [[e w]|w] eqn:Ha;
      [discriminate|].
    injection H as <-.
    assert (Hw : (heap s ++ [{| next := addr_end; data := w |}])
                   !! length (heap s)
                 = Some {| next := addr_end; data := w |})
      by (apply list_lookup_middle; reflexivity).
    split.
    + split; [reflexivity|]. exists w. exact Hw.
    + exists v, w. split; [reflexivity|]. split; [exact Ha|].
      unfold stored. cbn. rewrite Hw. reflexivity.
Qed.

End Optional.

Arguments mkItem {T} next data.
Arguments next {T} i.
Arguments data {T} i.
Arguments mkState {T} m_end m_container heap.
Arguments m_end {T} s.
Arguments m_container {T} s.
Arguments heap {T} s.
Arguments runtime_error {E} what.
Arguments T_exception {E} e.
Arguments Ok {T E A} a s.
Arguments Throw {T E A} e s.
Arguments Undefined {T E A}.
Arguments OutOfFuel {T E A}.
Arguments V_bool {T} b.
Arguments V_ref {T} r.
Arguments V_elems {T} l.

(** * The containers of the example program

    [Optional<std::string>] as [optionaltest.cpp] uses it: a default
    [std::string] is empty, [std::string] is not a pointer type, and it is
    emplaced from a character pointer, which its constructor rejects when
    null. *)
Module StringOptional.

Definition string_ctor (p : option string) : string + string :=
  match p with
  | Some chars => inr chars
  | None => inl "basic_string: construction from null is not valid"%string
  end.

Definition FILE : string := "optional.h"%string.

(** [Optional<std::string> opt5;] *)
Definition opt5 : state string := init string ""%string None [].

(** [Optional<std::string> opt2(s2);] with [s2 = "42"]. *)
Definition opt2 : state string := filled string ""%string None [] "42"%string.

Definition is_container : state string -> Prop :=
  container string ""%string None (option string) string string_ctor.

Lemma opt5_container : is_container opt5.
Proof. apply container_default with (h := []). reflexivity. Defined.

Lemma opt2_container : is_container opt2.
Proof.
  apply container_copy with (d := "42"%string) (h := []). reflexivity.
Defined.

(** The runs of the example program. *)

Example opt2_built :
  Optional_copy string ""%string None string "42"%string [] = Ok tt opt2.
Proof. reflexivity. Qed.

Example opt3_built :
  Optional_emplace string ""%string None (option string) string string_ctor
    (Some "35"%string) []
  = Ok tt (filled string ""%string None [] "35"%string).
Proof. reflexivity. Qed.

Example opt5_get :
  get string string FILE opt5
  = Throw (runtime_error
             "The Optional needs to be set before access (optional.h:290)"%string)
      opt5.
Proof. reflexivity. Qed.

Example opt2_iterate :
  iterate string string 2 opt2
  = Ok [(data_of (addr_heap 0), "42"%string)] opt2.
Proof. reflexivity. Qed.

Example opt5_iterate : iterate string string 1 opt5 = Ok [] opt5.
Proof. reflexivity. Qed.

(** One test of the loop condition is not enough on a set container. *)
Example opt2_iterate_short : iterate string string 1 opt2 = OutOfFuel.
Proof. reflexivity. Qed.

(** Reading through [*opt5.end()] gives the empty string of [m_end]. *)
Example opt5_read_end :
  bind string string (deref_end string string) (read string string) opt5
  = Ok ""%string opt5.
Proof. reflexivity. Qed.

(** [*opt5.end()] returns: the claim that the end marker is guarded
    fails on the empty container of the example program. *)
Lemma end_marker_guarded_fails : ~ end_marker_guarded string string 2 opt5.
Proof.
  intros [_ Hguard].
  apply (Hguard (data_of addr_end) opt5). reflexivity.
Qed.

Lemma get_contract_opt :
  (get string string FILE opt5
   = Throw (runtime_error (get_what FILE)) opt5) /\
  (exists r v, stored string opt2 = Some v /\
               get string string FILE opt2 = Ok r opt2 /\
               read string string r opt2 = Ok v opt2).
Proof.
  split.
  - apply (get_contract string ""%string None (option string) string
             string_ctor FILE opt5 opt5_container).
    reflexivity.
  - apply (get_contract string ""%string None (option string) string
             string_ctor FILE opt2 opt2_container).
    reflexivity.
Defined.

Lemma iteration_cardinality_opt :
  iterate string string 2 opt5 = Ok [] opt5 /\
  (exists r v, stored string opt2 = Some v /\
               iterate string string 2 opt2 = Ok [(r, v)] opt2).
Proof.
  split.
  - apply (iteration_cardinality string ""%string None (option string) string
             string_ctor 2 opt5 opt5_container); [lia | reflexivity].
  - apply (iteration_cardinality string ""%string None (option string) string
             string_ctor 2 opt2 opt2_container); [lia | reflexivity].
Defined.

(** [Optional<std::string> opt4("90");] *)
Lemma construction_invariant_opt4 :
  exists s r,
    Optional_emplace string ""%string None (option string) string string_ctor
      (Some "90"%string) [] = Ok tt s /\
    defined string string s = Ok true s /\
    get string string FILE s = Ok r s /\
    read string string r s = Ok "90"%string s.
Proof.
  apply (construction_invariant string ""%string None (option string) string
           string_ctor FILE []).
  reflexivity.
Defined.

Lemma no_reset_opt2 :
  exists e,
    update string ""%string None string string_ctor (Some "7"%string) opt2
    = Throw e opt2 /\
    (forall v, string_ctor (Some "7"%string) = inr v ->
               e = runtime_error update_what).
Proof.
  apply (no_reset string ""%string None (option string) string string_ctor
           FILE).
  reflexivity.
Defined.

(** [const Optional<std::string> a; Optional<std::string> b(a);] *)
Definition opt5_copy : state string :=
  {| m_end := {| next := addr_heap 0; data := ""%string |};
     m_container := nullptr;
     heap := [{| next := addr_heap 0; data := ""%string |}] |}.

Example opt5_copied : copy_of string string opt5 = Ok tt opt5_copy.
Proof. reflexivity. Qed.

Example opt5_copy_empty : empty string string opt5_copy = Ok true opt5_copy.
Proof. reflexivity. Qed.

Example opt5_copy_iterate : iterate string string 6 opt5_copy = OutOfFuel.
Proof. reflexivity. Qed.

(** [const Optional<std::string> a(s2); Optional<std::string> b(a);]:
    cell 0 is [a]'s [Item], cell 1 is [a.m_end]. *)
Definition opt2_copy : state string :=
  {| m_end := {| next := addr_heap 0; data := ""%string |};
     m_container := addr_heap 0;
     heap := [{| next := addr_heap 1; data := "42"%string |};
              {| next := addr_heap 0; data := ""%string |}] |}.

Example opt2_copied : copy_of string string opt2 = Ok tt opt2_copy.
Proof. reflexivity. Qed.

Example opt2_copy_get :
  bind string string (get string string FILE) (read string string) opt2_copy
  = Ok "42"%string opt2_copy.
Proof. reflexivity. Qed.

Example opt2_copy_iterate : iterate string string 6 opt2_copy = OutOfFuel.
Proof. reflexivity. Qed.

Lemma implicit_copy_never_ends_opt5 :
  exists b x,
    copy_of string string opt5 = Ok tt b /\
    defined string string opt5 = Ok x opt5 /\
    defined string string b = Ok x b /\
    stored string b = stored string opt5 /\
    forall fuel, iterate string string fuel b = OutOfFuel.
Proof.
  exact (implicit_copy_never_ends string ""%string None (option string) string
           string_ctor opt5 opt5_container).
Defined.

Lemma failure_before_mutation_null :
  Optional_emplace_assigning string ""%string None (option string) string
    string_ctor (fun _ v => inr v) None []
  = Throw (T_exception "basic_string: construction from null is not valid"%string)
      opt5 /\
  empty string string opt5 = Ok true opt5 /\
  stored string opt5 = None /\
  heap opt5 = [].
Proof.
  apply (failure_before_mutation string ""%string None (option string) string
           string_ctor FILE (fun _ v => inr v)).
  reflexivity.
Defined.

Lemma end_marker_unguarded_opt2 :
  end_ string string opt2 = Ok (Iterator addr_end) opt2 /\
  m_container opt2 <> addr_end /\
  steps_to_end string string 2 opt2
  = Ok (if to_bool (m_container opt2) then 1 else 0) opt2 /\
  deref_end string string opt2 = Ok (data_of addr_end) opt2 /\
  read string string (data_of addr_end) opt2
  = Ok (pointerInit string None ""%string) opt2 /\
  (forall l r v, iterate string string 2 opt2 = Ok l opt2 -> (r, v) ∈ l ->
                 ref_node r <> addr_end).
Proof.
  apply (end_marker_unguarded string ""%string None (option string) string
           string_ctor 2 opt2 opt2_container).
  lia.
Defined.

Lemma set_once_opt2 :
  exists vs s',
    run_ops string string FILE 2 [Op_get; Op_iterate; Op_empty; Op_defined] opt2
    = Some (vs, s') /\
    defined string string s' = defined string string opt2 /\
    stored string s' = stored string opt2 /\
    s' = opt2.
Proof.
  apply (set_once string ""%string None (option string) string string_ctor
           FILE 2 [Op_get; Op_iterate; Op_empty; Op_defined] opt2
           opt2_container).
  lia.
Defined.

Lemma begin_deref_is_get_opt2 :
  exists b r v,
    begin string string opt2 = Ok b opt2 /\
    iter_deref string string b opt2 = Ok r opt2 /\
    get string string FILE opt2 = Ok r opt2 /\
    read string string r opt2 = Ok v opt2 /\
    stored string opt2 = Some v.
Proof.
  apply (begin_deref_is_get string ""%string None (option string) string
           string_ctor FILE opt2 opt2_container).
  reflexivity.
Defined.

(** Instances of the further properties. *)

Lemma begin_is_end_iff_empty_opt2 :
  (exists b e, begin string string opt2 = Ok b opt2 /\
               end_ string string opt2 = Ok e opt2 /\
               empty string string opt2 = Ok (iter_eq b e) opt2 /\
               defined string string opt2 = Ok (iter_neq b e) opt2) /\
  (exists c b e x, copy_of string string opt2 = Ok tt c /\
                   begin string string c = Ok b c /\
                   end_ string string c = Ok e c /\
                   iter_eq b e = false /\
                   empty string string opt2 = Ok x opt2 /\
                   empty string string c = Ok x c).
Proof.
  exact (begin_is_end_iff_empty string ""%string None (option string) string
           string_ctor opt2 opt2_container).
Defined.

Lemma advance_wraps_opt2 :
  (exists b e, begin string string opt2 = Ok b opt2 /\
               end_ string string opt2 = Ok e opt2 /\
               advance string string 3 b opt2 = Ok e opt2 /\
               advance string string 3 e opt2 = Ok b opt2) /\
  (exists c b e it, copy_of string string opt2 = Ok tt c /\
                    begin string string c = Ok b c /\
                    end_ string string c = Ok e c /\
                    advance string string 3 b c = Ok it c /\
                    iter_eq it e = false).
Proof.
  exact (advance_wraps string ""%string None (option string) string
           string_ctor 3 opt2 opt2_container).
Defined.

Lemma construction_allocates_opt2 :
  heap opt2 = [] ++ [{| next := addr_end; data := "42"%string |}] /\
  m_container opt2 = addr_heap (length (@nil (Item string))).
Proof.
  apply (construction_allocates string ""%string None (option string) string
           string_ctor []).
  reflexivity.
Defined.

Lemma write_through_get_opt2 :
  exists r s',
    get string string FILE opt2 = Ok r opt2 /\
    assign string string r "43"%string opt2 = Ok tt s' /\
    defined string string s' = Ok true s' /\
    get string string FILE s' = Ok r s' /\
    read string string r s' = Ok "43"%string s' /\
    iterate string string 2 s' = Ok [(r, "43"%string)] s' /\
    m_container s' = m_container opt2 /\
    next (m_end s') = next (m_end opt2).
Proof.
  apply (write_through_get string ""%string None (option string) string
           string_ctor FILE 2 opt2 "43"%string opt2_container).
  - reflexivity.
  - lia.
Defined.

Lemma dtor_value_type_opt2 :
  Optional_dtor string None (T_eq_dec := string_dec) (fun _ => false) opt2
  = Some ([addr_heap 0], []).
Proof.
  apply (dtor_value_type string ""%string None (option string) string
           string_ctor (T_eq_dec := string_dec) (fun _ => false) opt2).
  - reflexivity.
  - exact opt2_container.
Defined.

End StringOptional.

(** [Optional<std::string*>], the first container of the example program:
    a pointer is [None] when null, and [pointerInit] selects the overload
    that nulls [m_end.data] whatever a default-initialised pointer held. *)
Module PointerOptional.

Definition pointer : Type := option nat.

Definition opt : state pointer :=
  filled pointer (Some 0) (Some None) [] (Some 24).

Example opt_built :
  Optional_emplace pointer (Some 0) (Some None) pointer Empty_set inr
    (Some 24) []
  = Ok tt opt.
Proof. reflexivity. Qed.

Example opt_end_data : data (m_end opt) = None.
Proof. reflexivity. Qed.

Example opt_iterate :
  iterate pointer Empty_set 2 opt = Ok [(data_of (addr_heap 0), Some 24)] opt.
Proof. reflexivity. Qed.

End PointerOptional.

(** [Optional<T*>] with the provenance of the pointers: null, the address
    of an object with automatic storage, or the result of a
    new-expression. *)
Module OwnedPointer.

Inductive address : Type :=
| null_address
| local_object (n : nat)
| new_object (n : nat).

#[local] Instance address_eq_dec : EqDecision address.
Proof. solve_decision. Defined.

Definition from_new (a : address) : bool :=
  match a with
  | new_object _ => true
  | null_address | local_object _ => false
  end.

Definition holding (a : address) : state address :=
  filled address null_address (Some null_address) [] a.

Lemma holding_container a :
  container address null_address (Some null_address) address Empty_set inr
    (holding a).
Proof. apply container_copy with (d := a) (h := []). reflexivity. Defined.

(** [Optional<std::string*> opt(&s);] of the example program holds the
    address of the local [s]: its destruction is undefined. *)
Example dtor_local_object :
  Optional_dtor address (Some null_address) from_new (holding (local_object 0))
  = None.
Proof. reflexivity. Qed.

Lemma dtor_pointer_type_new_object :
  Optional_dtor address (Some null_address) from_new (holding (new_object 7))
  = Some ([addr_heap 0], [new_object 7]).
Proof.
  exact (dtor_pointer_type address null_address (Some null_address) address
           Empty_set inr from_new null_address (holding (new_object 7))
           eq_refl (holding_container (new_object 7))).
Defined.

Lemma pointerDelete_once_new_object :
  pointerDelete address (Some null_address) from_new null_address
  = Some ([], null_address) /\
  ([new_object 7] = [] /\ null_address = new_object 7 \/
   [new_object 7] = [new_object 7] /\
   from_new (new_object 7) = true /\
   Some null_address = Some null_address).
Proof.
  apply (pointerDelete_once address (Some null_address) from_new
           (new_object 7) null_address [new_object 7]).
  reflexivity.
Defined.

End OwnedPointer.

(** A [T] whose assignment refuses some values: a counter that holds at
    most 9, built from any number, and whose assignment throws on a larger
    one and keeps what it held. *)
Module ThrowingAssignment.

Definition counter_ctor (n : nat) : string + nat := inr n.

Definition counter_assign (old v : nat) : (string * nat) + nat :=
  if 9 <? v then inl ("out of range"%string, old) else inr v.

(** The object the emplacement constructor is working on when the
    assignment of 10 throws. *)
Definition half_done : state nat :=
  {| m_end := {| next := addr_end; data := 0 |};
     m_container := addr_heap 0;
     heap := [{| next := addr_heap 0; data := 0 |}] |}.

Example emplace_10 :
  Optional_emplace_assigning nat 0 None nat string counter_ctor counter_assign
    10 []
  = Throw (T_exception "out of range"%string) half_done.
Proof. reflexivity. Qed.

Example emplace_5 :
  Optional_emplace_assigning nat 0 None nat string counter_ctor counter_assign
    5 []
  = Ok tt (filled nat 0 None [] 5).
Proof. reflexivity. Qed.

(** [defined] says set, the traversal finds nothing, and [get] reads a
    value nobody supplied. *)
Example half_done_defined : defined nat string half_done = Ok true half_done.
Proof. reflexivity. Qed.

Example half_done_iterate : iterate nat string 2 half_done = Ok [] half_done.
Proof. reflexivity. Qed.

Example half_done_get :
  bind nat string (get nat string "optional.h"%string) (read nat string)
    half_done
  = Ok 0 half_done.
Proof. reflexivity. Qed.

Lemma update_assigning_half_done_10 :
  exists s',
    Optional_emplace_assigning nat 0 None nat string counter_ctor
      counter_assign 10 []
    = Throw (T_exception "out of range"%string) s' /\
    s' <> init nat 0 None [] /\
    m_container s' = addr_heap (length (@nil (Item nat))) /\
    defined nat string s' = Ok true s' /\
    heap s' = [] ++ [{| next := addr_heap (length (@nil (Item nat)));
                        data := 0 |}] /\
    next (m_end s') = addr_end.
Proof.
  exact (update_assigning_half_done nat 0 None nat string counter_ctor
           counter_assign 10 [] 10 0 "out of range"%string eq_refl eq_refl).
Defined.

End ThrowingAssignment.
